(** * geo-three: the Bing Maps tile provider and the shader height node

  A shallow embedding of [source/providers/BingMapsProvider.ts] and of the
  [MapHeightNodeShader] node, with the properties of the quadkey encoding,
  of the tile request and of the cancelable fetch handle.

  JavaScript Numbers that hold integers are modelled as [Z], which is exact
  for the safe integers; the 32-bit conversions that the bitwise operators
  apply are written out, and so is the rounding of the loop counter of
  [quadKey] beyond 2^53 ([JS.decrement], used by [quadKey_run]). Objects that are shared by reference (image
  elements, fetch handles) live in stores and are named by their index
  there. *)

From stdpp Require Import base list.
From Stdlib Require Import ZArith String Ascii Lia Bool DecimalString.
From Equations Require Import Equations.

Local Open Scope string_scope.
Local Open Scope Z_scope.

(** ** ECMAScript operators used by the sources *)

Module JS.

(** ToInt32: reduce modulo 2^32 into the signed range. *)
Definition ToInt32 (v : Z) : Z :=
  let m := v mod 2 ^ 32 in
  if m <? 2 ^ 31 then m else m - 2 ^ 32.

(** ToUint32: reduce modulo 2^32 into the unsigned range. *)
Definition ToUint32 (v : Z) : Z := v mod 2 ^ 32.

(** [a << b]: the left operand as an int32, the shift count taken from the
    low five bits of the right operand, the result again an int32. *)
Definition shl (a b : Z) : Z :=
  ToInt32 (Z.shiftl (ToInt32 a) (Z.land (ToUint32 b) 31)).

(** [a & b] on the int32 values of both operands. *)
Definition band (a b : Z) : Z := Z.land (ToInt32 a) (ToInt32 b).

(** [a !== b] on Numbers. *)
Definition strict_neq (a b : Z) : bool := negb (a =? b).



(** Number to String conversion of an integer, in decimal. *)
Definition Number_toString (n : Z) : string :=
  NilZero.string_of_int (Z.to_int n).

(** A computation over a program state [W] returning an [A]. *)
Definition M (W A : Type) : Type := W -> A * W.

Definition ret {W A} (a : A) : M W A := fun w => (a, w).

Definition bind {W A B} (m : M W A) (k : A -> M W B) : M W B :=
  fun w => let (a, w') := m w in k a w'.

Definition modify {W} (f : W -> W) : M W unit := fun w => (tt, f w).

End JS.

Declare Scope js_scope.
Delimit Scope js_scope with js.
Notation "x <- m ;; k" := (JS.bind m (fun x => k))
  (at level 100, m at next level, right associativity) : js_scope.
Notation "m ;; k" := (JS.bind m (fun _ => k))
  (at level 100, right associativity) : js_scope.

(** ** The document: image elements and their event handlers

  The image element of the browser, with the four members that [fetchTile]
  assigns, and the two events that the browser raises on it. *)

Module DOM.

(** Objects are identified by their position in the store that holds
    them. *)
Abbreviation ImageRef := nat.
Abbreviation HandleRef := nat.

(** The two closures that [fetchTile] installs on an image. Both capture
    the [resolve] and [reject] functions of one handle; the first also
    captures the image. *)
Inductive Listener : Type :=
| ResolveWithImage (h : HandleRef) (image : ImageRef)
    (* function() { resolve(image); } *)
| RejectBare (h : HandleRef).
    (* function() { reject(); } *)

Record HTMLImageElement : Type := mkImage {
  onload : option Listener;
  onerror : option Listener;
  crossOrigin : option string;
  src : option string
}.

(** [document.createElement('img')] yields an element with nothing set. *)
Definition blank : HTMLImageElement :=
  {| onload := None; onerror := None; crossOrigin := None; src := None |}.

Definition with_onload (l : Listener) (e : HTMLImageElement) :=
  {| onload := Some l; onerror := onerror e;
     crossOrigin := crossOrigin e; src := src e |}.

Definition with_onerror (l : Listener) (e : HTMLImageElement) :=
  {| onload := onload e; onerror := Some l;
     crossOrigin := crossOrigin e; src := src e |}.

Definition with_crossOrigin (c : string) (e : HTMLImageElement) :=
  {| onload := onload e; onerror := onerror e;
     crossOrigin := Some c; src := src e |}.

(** Assigning [src] starts the load of that address. *)
Definition with_src (u : string) (e : HTMLImageElement) :=
  {| onload := onload e; onerror := onerror e;
     crossOrigin := crossOrigin e; src := Some u |}.

(** An aborted load: the element no longer has an address to load and no
    handler is left to call. *)
Definition aborted (e : HTMLImageElement) : HTMLImageElement :=
  {| onload := None; onerror := None;
     crossOrigin := crossOrigin e; src := None |}.

(** A load is in flight while the element has an address. *)
Definition loading (e : HTMLImageElement) : bool :=
  match src e with Some _ => true | None => false end.

(** Why the browser raises [error] on an image. *)
Inductive Failure : Type := TransportFailure | DecodeFailure.

End DOM.

(** ** CancelablePromise *)

Module CancelablePromise.
Import DOM.

(** Modelled from the spec: the class [CancelablePromise] of
    [utils/CancelablePromise], which is not among the sources. The spec
    describes the handle as a value with the states pending, resolved,
    rejected and canceled, settled exactly once, cancellation being a
    transition from pending to canceled only; the handle owns the
    underlying transport until resolution, rejection or cancellation
    releases it. *)
Inductive State : Type :=
| Pending
| Resolved (value : ImageRef)
| Rejected (reason : option string)
| Canceled.

(** Modelled from the spec: a continuation of the caller that has been
    invoked, success or failure, with its argument. *)
Inductive Call : Type :=
| Success (value : ImageRef)
| Failed (reason : option string).

(** Modelled from the spec: the handle, with the calls it has made to the
    caller's continuations, oldest first. *)
Record t : Type := mk {
  state : State;
  calls : list Call;
  transport : option ImageRef
}.

(** Modelled from the spec: a handle as the constructor leaves it. The
    constructor receives the executor only (see [fetchTile]), so the new
    handle has been given no transport. *)
Definition fresh : t :=
  {| state := Pending; calls := []; transport := None |}.

(** Modelled from the spec: [resolve(value)] settles a pending handle and
    invokes the success continuation; a handle that is not pending is left
    as it is. *)
Definition resolve (value : ImageRef) (p : t) : t :=
  match state p with
  | Pending => {| state := Resolved value;
                  calls := (calls p ++ [Success value])%list;
                  transport := None |}
  | _ => p
  end.

(** Modelled from the spec: [reject(reason)], likewise. *)
Definition reject (reason : option string) (p : t) : t :=
  match state p with
  | Pending => {| state := Rejected reason;
                  calls := (calls p ++ [Failed reason])%list;
                  transport := None |}
  | _ => p
  end.

(** Modelled from the spec: [cancel()] moves a pending handle to canceled
    and releases its transport; no continuation is invoked. *)
Definition cancel (p : t) : t :=
  match state p with
  | Pending => {| state := Canceled; calls := calls p; transport := None |}
  | _ => p
  end.

(** Modelled from the spec: the transport that [cancel()] has to abort,
    the one a pending handle owns. *)
Definition to_abort (p : t) : option ImageRef :=
  match state p with
  | Pending => transport p
  | _ => None
  end.

End CancelablePromise.

(** ** The state of the page and the events that reach it *)

Module Page.
Import DOM.

Record World : Type := mkWorld {
  images : list HTMLImageElement;
  handles : list CancelablePromise.t
}.

Definition empty : World := {| images := []; handles := [] |}.

Definition update_image (f : HTMLImageElement -> HTMLImageElement)
  (i : ImageRef) (w : World) : World :=
  {| images := alter f i (images w); handles := handles w |}.

Definition update_handle (f : CancelablePromise.t -> CancelablePromise.t)
  (h : HandleRef) (w : World) : World :=
  {| images := images w; handles := alter f h (handles w) |}.

(** [document.createElement('img')] *)
Definition createElement_img : JS.M World ImageRef :=
  fun w => (List.length (images w),
            {| images := (images w ++ [blank])%list;
               handles := handles w |}).

Definition set_onload (i : ImageRef) (l : Listener) : JS.M World unit :=
  JS.modify (update_image (with_onload l) i).

Definition set_onerror (i : ImageRef) (l : Listener) : JS.M World unit :=
  JS.modify (update_image (with_onerror l) i).

Definition set_crossOrigin (i : ImageRef) (c : string) : JS.M World unit :=
  JS.modify (update_image (with_crossOrigin c) i).

Definition set_src (i : ImageRef) (u : string) : JS.M World unit :=
  JS.modify (update_image (with_src u) i).

(** Modelled from the spec: [new CancelablePromise(executor)] creates a
    pending handle and runs the executor at once, handing it the [resolve]
    and [reject] functions of the new handle (here: its reference). *)
Definition new_CancelablePromise (executor : HandleRef -> JS.M World unit)
  : JS.M World HandleRef :=
  fun w =>
    let h := List.length (handles w) in
    let w1 := {| images := images w;
                 handles := (handles w ++ [CancelablePromise.fresh])%list |} in
    (h, snd (executor h w1)).

(** Calling one of the closures installed by [fetchTile]. *)
Definition call (l : Listener) (w : World) : World :=
  match l with
  | ResolveWithImage h image =>
      update_handle (CancelablePromise.resolve image) h w
  | RejectBare h =>
      update_handle (CancelablePromise.reject None) h w
  end.

(** Modelled from the spec: [handle.cancel()], which aborts the transport
    the handle owns, if it owns one. *)
Definition cancel (h : HandleRef) (w : World) : World :=
  match handles w !! h with
  | Some p =>
      let w1 := update_handle CancelablePromise.cancel h w in
      match CancelablePromise.to_abort p with
      | Some i => update_image aborted i w1
      | None => w1
      end
  | None => w
  end.

(** What can happen after a fetch has started: the browser raises [load]
    or [error] on an image that is loading, or the caller cancels a
    handle. *)
Inductive Event : Type :=
| Load (i : ImageRef)
| Error (i : ImageRef) (why : Failure)
| Cancel (h : HandleRef).

Definition fire (handler : HTMLImageElement -> option Listener)
  (i : ImageRef) (w : World) : World :=
  match images w !! i with
  | Some e =>
      if loading e then
        match handler e with
        | Some l => call l w
        | None => w
        end
      else w
  | None => w
  end.

Definition dispatch (ev : Event) (w : World) : World :=
  match ev with
  | Load i => fire onload i w
  | Error i _ => fire onerror i w
  | Cancel h => cancel h w
  end.

Definition run (evs : list Event) (w : World) : World :=
  foldl (fun w ev => dispatch ev w) w evs.

(** The handle whose [resolve] or [reject] a closure calls. *)
Definition target (l : Listener) : HandleRef :=
  match l with
  | ResolveWithImage h _ => h
  | RejectBare h => h
  end.

(** Every transport owned by a handle is an element of the page. *)
Definition owns_existing (w : World) : Prop :=
  Forall (fun p => forall i, CancelablePromise.transport p = Some i ->
                             (i < List.length (images w))%nat)
         (handles w).

(** Every handler of an image settles a handle of the page. *)
Definition listeners_existing (w : World) : Prop :=
  Forall (fun e => forall l, onload e = Some l \/ onerror e = Some l ->
                             (target l < List.length (handles w))%nat)
         (images w).

(** A page whose objects refer to objects of the page only. *)
Definition well_formed (w : World) : Prop :=
  owns_existing w /\ listeners_existing w.

(** The events of one fetch: those on its image and the cancellation of
    its handle. *)
Definition concerns (h : HandleRef) (i : ImageRef) (ev : Event) : bool :=
  match ev with
  | Load j => Nat.eqb j i
  | Error j _ => Nat.eqb j i
  | Cancel k => Nat.eqb k h
  end.

(** The fetch with handle [h] and image [i] is on its own: the handle is
    [p], the image is [e], no handle owns the image and no handler of
    another image settles the handle. *)
Definition on_its_own (h : HandleRef) (i : ImageRef)
  (p : CancelablePromise.t) (e : HTMLImageElement) (w : World) : Prop :=
  handles w !! h = Some p /\
  images w !! i = Some e /\
  Forall (fun q => CancelablePromise.transport q <> Some i) (handles w) /\
  (forall j e' l, j <> i -> images w !! j = Some e' ->
                  onload e' = Some l \/ onerror e' = Some l ->
                  target l <> h).

(** A run of events of other fetches. *)
Definition foreign (h : HandleRef) (i : ImageRef) (evs : list Event) : Prop :=
  Forall (fun ev => concerns h i ev = false) evs.

(** The operations that events apply to a handle leave a settled or
    canceled handle as it is, and never hand a transport to a handle. *)
Definition handle_op (f : CancelablePromise.t -> CancelablePromise.t)
  : Prop :=
  forall p,
    (CancelablePromise.state p <> CancelablePromise.Pending -> f p = p) /\
    (CancelablePromise.transport (f p) = None \/
     CancelablePromise.transport (f p) = CancelablePromise.transport p).

End Page.

(** ** BingMapsProvider *)

Module BingMapsProvider.

(** The fields the class declares (those of the base class [MapProvider]
    are not touched by the methods below). *)
Record t : Type := mk {
  maxZoom : Z;
  apiKey : string;
  type : string;
  format : string;
  mapSize : Z;
  subdomain : string
}.

Definition AERIAL : string := "a".
Definition ROAD : string := "r".
Definition AERIAL_LABELS : string := "h".
Definition OBLIQUE : string := "o".
Definition OBLIQUE_LABELS : string := "b".

(** The five view-type constants of the class. *)
Definition view_types : list string :=
  [AERIAL; ROAD; AERIAL_LABELS; OBLIQUE; OBLIQUE_LABELS].

(** [new BingMapsProvider(apiKey, type)]; [None] is an argument that is
    [undefined]. The field initialisers run before the constructor body. *)
Definition constructor (apiKey type : option string) : t :=
  {| maxZoom := 19;
     apiKey := match apiKey with Some k => k | None => "" end;
     type := match type with Some ty => ty | None => AERIAL end;
     format := "jpeg";
     mapSize := 512;
     subdomain := "t1" |}.

(** One iteration of the loop of [quadKey], at loop counter [i]. *)
Definition quadKey_body (x y i : Z) (quad : string) : string :=
  let mask := JS.shl 1 (i - 1) in
  let cell := 0 in
  let cell := if JS.strict_neq (JS.band x mask) 0 then cell + 1 else cell in
  let cell := if JS.strict_neq (JS.band y mask) 0 then cell + 2 else cell in
  (quad ++ JS.Number_toString cell)%string.

(** [for (let i = zoom; i > 0; i--) { ... }] from counter [i] on, the
    counter being decremented exactly, as it is from 2^53 down. *)
Equations quadKey_loop (x y i : Z) (quad : string) : string
  by wf (Z.to_nat i) lt :=
  quadKey_loop x y i quad with Z_lt_dec 0 i => {
    | left _ => quadKey_loop x y (i - 1) (quadKey_body x y i quad)
    | right _ => quad }.
Next Obligation. lia. Qed.

Definition quadKey (zoom x y : Z) : string := quadKey_loop x y zoom "".



(** The address of the tile image, as [fetchTile] concatenates it. *)
Definition tile_url (this : t) (zoom x y : Z) : string :=
  ("http://ecn." ++ subdomain this ++ ".tiles.virtualearth.net/tiles/"
     ++ type this ++ quadKey zoom x y ++ ".jpeg?g=1173")%string.

(** [fetchTile(zoom, x, y)]: the executor passed to the handle creates the
    image, installs the two handlers and assigns the address. *)
Definition fetchTile (this : t) (zoom x y : Z)
  : JS.M Page.World DOM.HandleRef :=
  Page.new_CancelablePromise (fun h =>
    (image <- Page.createElement_img ;;
     Page.set_onload image (DOM.ResolveWithImage h image) ;;
     Page.set_onerror image (DOM.RejectBare h) ;;
     Page.set_crossOrigin image "Anonymous" ;;
     Page.set_src image (tile_url this zoom x y))%js).

(** The image element as the executor of [fetchTile] leaves it. *)
Definition requested (this : t) (zoom x y : Z)
  (h : DOM.HandleRef) (image : DOM.ImageRef) : DOM.HTMLImageElement :=
  {| DOM.onload := Some (DOM.ResolveWithImage h image);
     DOM.onerror := Some (DOM.RejectBare h);
     DOM.crossOrigin := Some "Anonymous";
     DOM.src := Some (tile_url this zoom x y) |}.

End BingMapsProvider.

(** ** MapHeightNodeShader *)

Module MapHeightNodeShader.

Section Node.

(** The fields of a node are those that [MapHeightNode] sets up, which is
    declared in another file: the program state that holds the nodes,
    and the references to them, are parameters. *)
Variable Heap : Type.
Variable NodeRef : Type.

(** [MapHeightNodeShader.prototype.loadHeightGeometry = function() {}] *)
Definition loadHeightGeometry (this : NodeRef) : JS.M Heap unit :=
  JS.ret tt.

End Node.

End MapHeightNodeShader.

(** ** The quadkey, digit by digit

  The digits and the alphabet as the spec words them, a decoder, and the
  string that the loop of [quadKey] builds, as a structural recursion. *)

Module QuadKeyDigits.

(** The character of the decimal digit [d]. *)
Definition digit (d : Z) : ascii := ascii_of_nat (Z.to_nat (48 + d)).

(** The digit of one level: the bit of [x] counts 1, the bit of [y]
    counts 2. *)
Definition level_digit (bx by' : bool) : ascii :=
  digit (Z.b2z bx + 2 * Z.b2z by').

Definition alphabet : list ascii := ["0"; "1"; "2"; "3"]%char.

(** ["0".repeat(n)] and the like. *)
Fixpoint repeat (c : ascii) (n : nat) : string :=
  match n with
  | O => EmptyString
  | S m => String c (repeat c m)
  end.

(** A decoder of quadkeys: it reads the digits from the most significant
    one, doubling the coordinates read so far. *)
Fixpoint decode_from (s : string) (acc : Z * Z) : Z * Z :=
  match s with
  | EmptyString => acc
  | String c rest =>
      let d := Z.of_nat (nat_of_ascii c) - 48 in
      decode_from rest (2 * fst acc + d mod 2, 2 * snd acc + d / 2)
  end.

Definition decode (s : string) : Z * Z := decode_from s (0, 0).

(** The string that [n] iterations of the loop of [quadKey] append, from
    loop counter [n] down to 1: iteration [i] reads bit [(i - 1) mod 32]. *)
Fixpoint loop_digits (x y : Z) (n : nat) : string :=
  match n with
  | O => EmptyString
  | S m =>
      String (level_digit (Z.testbit x (Z.of_nat m mod 32))
                          (Z.testbit y (Z.of_nat m mod 32)))
             (loop_digits x y m)
  end.

(** A string all of whose characters are quadkey digits. *)
Fixpoint over_alphabet (s : string) : Prop :=
  match s with
  | EmptyString => True
  | String c rest => In c alphabet /\ over_alphabet rest
  end.

End QuadKeyDigits.

(** ** Facts about the 32-bit operators *)

Section Int32.

Lemma ToInt32_range (v : Z) : - 2 ^ 31 <= JS.ToInt32 v < 2 ^ 31.
Proof.
  unfold JS.ToInt32.
  pose proof (Z.mod_pos_bound v (2 ^ 32) ltac:(lia)) as Hm.
  destruct (Z.ltb_spec (v mod 2 ^ 32) (2 ^ 31)); lia.
Qed.

Lemma ToInt32_testbit (v j : Z) :
  0 <= j < 32 -> Z.testbit (JS.ToInt32 v) j = Z.testbit v j.
Proof.
  intros Hj. unfold JS.ToInt32.
  destruct (Z.ltb_spec (v mod 2 ^ 32) (2 ^ 31)) as [_ | _].
  - apply Z.mod_pow2_bits_low. lia.
  - rewrite <- (Z.mod_pow2_bits_low (v mod 2 ^ 32 - 2 ^ 32) 32 j) by lia.
    replace (v mod 2 ^ 32 - 2 ^ 32) with (v mod 2 ^ 32 + (-1) * 2 ^ 32) by lia.
    rewrite Z.mod_add by lia. rewrite Z.mod_mod by lia.
    apply Z.mod_pow2_bits_low. lia.
Qed.

(** From bit 31 on, an int32 repeats its sign bit. *)
Lemma int32_testbit_high (a n : Z) :
  - 2 ^ 31 <= a < 2 ^ 31 -> 31 <= n -> Z.testbit a n = Z.testbit a 31.
Proof.
  intros Ha Hn.
  destruct (Z.neg_nonneg_cases a) as [Hneg | Hpos].
  - assert (Hlog : Z.log2 (Z.pred (- a)) < 31).
    { destruct (Z.eq_dec (Z.pred (- a)) 0) as [-> | Hnz]; [reflexivity |].
      apply Z.log2_lt_pow2; lia. }
    rewrite !Z.bits_above_log2_neg by lia. reflexivity.
  - pose proof (proj1 (Z.bounded_iff_bits_nonneg 31 a ltac:(lia) Hpos)
                  ltac:(lia)) as Hhigh.
    rewrite !Hhigh by lia. reflexivity.
Qed.

Lemma ToInt32_small (a : Z) :
  - 2 ^ 31 <= a < 2 ^ 31 -> JS.ToInt32 a = a.
Proof.
  intros Ha. unfold JS.ToInt32.
  destruct (Z.neg_nonneg_cases a) as [Hneg | Hpos].
  - rewrite <- (Z.mod_add a 1 (2 ^ 32)) by lia.
    rewrite Z.mod_small by lia.
    destruct (Z.ltb_spec (a + 1 * 2 ^ 32) (2 ^ 31)); lia.
  - rewrite Z.mod_small by lia.
    destruct (Z.ltb_spec a (2 ^ 31)); lia.
Qed.

(** The shift count of [<<] is its right operand modulo 32. *)
Lemma shl_1 (k : Z) : JS.shl 1 k = JS.ToInt32 (2 ^ (k mod 32)).
Proof.
  unfold JS.shl, JS.ToUint32.
  change (JS.ToInt32 1) with 1. change 31 with (Z.ones 5).
  rewrite Z.land_ones by lia. rewrite Z.shiftl_1_l.
  rewrite (Z.mod_mod_divide k (2 ^ 32) (2 ^ 5)).
  - reflexivity.
  - exists (2 ^ 27). reflexivity.
Qed.

(** The test [(v & (1 << k)) !== 0] reads one bit of [v]. *)
Lemma band_shl_testbit (v k : Z) :
  JS.strict_neq (JS.band v (JS.shl 1 k)) 0 = Z.testbit v (k mod 32).
Proof.
  rewrite shl_1. unfold JS.strict_neq, JS.band.
  pose proof (Z.mod_pos_bound k 32 ltac:(lia)) as Hj.
  set (j := k mod 32) in *.
  pose proof (ToInt32_range (2 ^ j)) as Hm.
  pose proof (ToInt32_range v) as Ha.
  rewrite (ToInt32_small (JS.ToInt32 (2 ^ j))) by exact Hm.
  rewrite <- (ToInt32_testbit v j) by lia.
  assert (Hlow : forall n, 0 <= n < 32 ->
                   Z.testbit (JS.ToInt32 (2 ^ j)) n = (j =? n)).
  { intros n Hn. rewrite ToInt32_testbit by lia.
    apply Z.pow2_bits_eqb. lia. }
  set (a := JS.ToInt32 v) in *. set (m := JS.ToInt32 (2 ^ j)) in *.
  destruct (Z.testbit a j) eqn:Hb.
  - destruct (Z.eqb_spec (Z.land a m) 0) as [Hz | _]; [| reflexivity].
    assert (Hbit : Z.testbit (Z.land a m) j = true).
    { rewrite Z.land_spec, Hb, Hlow, Z.eqb_refl by lia. reflexivity. }
    rewrite Hz, Z.bits_0 in Hbit. discriminate.
  - assert (Hz : Z.land a m = 0).
    { apply Z.bits_inj'. intros n Hn. rewrite Z.land_spec, Z.bits_0.
      destruct (Z.lt_ge_cases n 32) as [Hlt | Hge].
      - rewrite Hlow by lia.
        destruct (Z.eqb_spec j n) as [<- | _].
        + rewrite Hb. reflexivity.
        + apply andb_false_r.
      - rewrite (int32_testbit_high a n), (int32_testbit_high m n) by lia.
        rewrite Hlow by lia.
        destruct (Z.eqb_spec j 31) as [Hj31 | _].
        + rewrite <- Hj31, Hb. reflexivity.
        + apply andb_false_r. }
    rewrite Hz. reflexivity.
Qed.

End Int32.

(** ** Strings *)

Section Strings.

Lemma append_nil_r (s : string) : (s ++ "")%string = s.
Proof. induction s as [| c s IH]; simpl; [| rewrite IH]; reflexivity. Qed.

Lemma append_assoc (s1 s2 s3 : string) :
  ((s1 ++ s2) ++ s3)%string = (s1 ++ (s2 ++ s3))%string.
Proof. induction s1 as [| c s1 IH]; simpl; [| rewrite IH]; reflexivity. Qed.

End Strings.

(** ** The loop of quadKey *)

Section QuadKeyLoop.
Import BingMapsProvider QuadKeyDigits.

Lemma quadKey_body_digit (x y i : Z) (quad : string) :
  quadKey_body x y i quad =
  (quad ++ String (level_digit (Z.testbit x ((i - 1) mod 32))
                               (Z.testbit y ((i - 1) mod 32))) "")%string.
Proof.
  unfold quadKey_body. rewrite !band_shl_testbit.
  destruct (Z.testbit x _), (Z.testbit y _); reflexivity.
Qed.

Lemma quadKey_loop_done (x y i : Z) (quad : string) :
  i <= 0 -> quadKey_loop x y i quad = quad.
Proof.
  intros Hi. rewrite (quadKey_loop_equation_1 x y i quad).
  destruct (Z_lt_dec 0 i) as [Hlt | Hge]; [lia | reflexivity].
Qed.

Lemma quadKey_loop_step (x y i : Z) (quad : string) :
  0 < i ->
  quadKey_loop x y i quad =
  quadKey_loop x y (i - 1) (quadKey_body x y i quad).
Proof.
  intros Hi. rewrite (quadKey_loop_equation_1 x y i quad).
  destruct (Z_lt_dec 0 i) as [Hlt | Hge]; [reflexivity | lia].
Qed.

Lemma quadKey_loop_digits (n : nat) (x y : Z) (quad : string) :
  quadKey_loop x y (Z.of_nat n) quad = (quad ++ loop_digits x y n)%string.
Proof.
  revert quad. induction n as [| m IH]; intros quad.
  - rewrite quadKey_loop_done by lia. simpl. symmetry. apply append_nil_r.
  - rewrite quadKey_loop_step by lia.
    replace (Z.of_nat (S m) - 1) with (Z.of_nat m) by lia.
    rewrite IH, quadKey_body_digit, append_assoc.
    replace (Z.of_nat (S m) - 1) with (Z.of_nat m) by lia.
    reflexivity.
Qed.

Lemma quadKey_digits (zoom x y : Z) :
  quadKey zoom x y = loop_digits x y (Z.to_nat zoom).
Proof.
  unfold quadKey. destruct (Z.le_gt_cases zoom 0) as [Hle | Hgt].
  - rewrite quadKey_loop_done by lia.
    replace (Z.to_nat zoom) with 0%nat by lia. reflexivity.
  - rewrite <- (Z2Nat.id zoom) at 1 by lia.
    apply quadKey_loop_digits.
Qed.






Lemma loop_digits_length (x y : Z) (n : nat) :
  String.length (loop_digits x y n) = n.
Proof. induction n as [| m IH]; simpl; [| rewrite IH]; reflexivity. Qed.

Lemma loop_digits_get (x y : Z) (n p : nat) :
  (p < n)%nat ->
  String.get p (loop_digits x y n) =
  Some (level_digit (Z.testbit x (Z.of_nat (n - 1 - p) mod 32))
                    (Z.testbit y (Z.of_nat (n - 1 - p) mod 32))).
Proof.
  revert p. induction n as [| m IH]; intros p Hp; [lia |].
  destruct p as [| p']; cbn [loop_digits String.get].
  - replace (S m - 1 - 0)%nat with m by lia. reflexivity.
  - rewrite IH by lia.
    replace (S m - 1 - S p')%nat with (m - 1 - p')%nat by lia. reflexivity.
Qed.

Lemma level_digit_alphabet (bx by' : bool) :
  In (level_digit bx by') alphabet.
Proof. destruct bx, by'; simpl; tauto. Qed.

Lemma loop_digits_alphabet (x y : Z) (n p : nat) (c : ascii) :
  String.get p (loop_digits x y n) = Some c -> In c alphabet.
Proof.
  revert p. induction n as [| m IH]; intros p; simpl.
  - destruct p; discriminate.
  - destruct p as [| p'].
    + intros [= <-]. apply level_digit_alphabet.
    + apply IH.
Qed.

(** The quadkey only depends on the bits that the loop reads. *)
Lemma loop_digits_ext (x y x' y' : Z) (n : nat) :
  (forall k, (k < n)%nat ->
     Z.testbit x (Z.of_nat k mod 32) = Z.testbit x' (Z.of_nat k mod 32)) ->
  (forall k, (k < n)%nat ->
     Z.testbit y (Z.of_nat k mod 32) = Z.testbit y' (Z.of_nat k mod 32)) ->
  loop_digits x y n = loop_digits x' y' n.
Proof.
  induction n as [| m IH]; intros Hx Hy; simpl; [reflexivity |].
  rewrite (Hx m), (Hy m) by lia. f_equal.
  apply IH; intros k Hk; [apply Hx | apply Hy]; lia.
Qed.

Lemma mod_pow2_split (a : Z) (m : nat) :
  a mod 2 ^ Z.of_nat (S m) =
  Z.b2z (Z.testbit a (Z.of_nat m)) * 2 ^ Z.of_nat m + a mod 2 ^ Z.of_nat m.
Proof.
  rewrite Nat2Z.inj_succ, Z.pow_succ_r by lia.
  rewrite (Z.mul_comm 2), Z.rem_mul_r by lia.
  rewrite Z.testbit_spec' by lia. lia.
Qed.

Lemma decode_level_digit (bx by' : bool) (rest : string) (acc : Z * Z) :
  decode_from (String (level_digit bx by') rest) acc =
  decode_from rest (2 * fst acc + Z.b2z bx, 2 * snd acc + Z.b2z by').
Proof. destruct bx, by'; reflexivity. Qed.

Lemma decode_loop_digits (x y : Z) (n : nat) (acc : Z * Z) :
  (n <= 32)%nat ->
  decode_from (loop_digits x y n) acc =
  (fst acc * 2 ^ Z.of_nat n + x mod 2 ^ Z.of_nat n,
   snd acc * 2 ^ Z.of_nat n + y mod 2 ^ Z.of_nat n).
Proof.
  revert acc. induction n as [| m IH]; intros [ax ay] Hn.
  - simpl. rewrite !Z.mod_1_r. f_equal; lia.
  - cbn [loop_digits]. rewrite decode_level_digit, IH by lia.
    rewrite (Z.mod_small (Z.of_nat m) 32) by lia.
    rewrite !mod_pow2_split. cbn [fst snd].
    rewrite Nat2Z.inj_succ, Z.pow_succ_r by lia. f_equal; lia.
Qed.

Lemma decode_quadKey (z x y : Z) :
  0 <= z <= 32 -> 0 <= x < 2 ^ z -> 0 <= y < 2 ^ z ->
  decode (quadKey z x y) = (x, y).
Proof.
  intros Hz Hx Hy. unfold decode.
  rewrite quadKey_digits, decode_loop_digits by lia.
  rewrite Z2Nat.id by lia. rewrite !Z.mod_small by lia. reflexivity.
Qed.

End QuadKeyLoop.

(** ** The quadkey encoding *)

Section QuadKey.
Import BingMapsProvider QuadKeyDigits.

(** C1, up to zoom 32: for [0 <= z <= 32] and [0 <= x, y < 2^z], the
    quadkey has exactly [z] characters, all of them among 0, 1, 2 and 3,
    and its [i]-th character, counted from 1 at the most significant end,
    is the digit [(bit z-i of x) + 2 * (bit z-i of y)]. *)
Theorem quadKey_length_and_digits (z x y : Z) :
  0 <= z <= 32 -> 0 <= x < 2 ^ z -> 0 <= y < 2 ^ z ->
  String.length (quadKey z x y) = Z.to_nat z /\
  (forall p c, String.get p (quadKey z x y) = Some c -> In c alphabet) /\
  (forall i, 1 <= i <= z ->
     String.get (Z.to_nat (i - 1)) (quadKey z x y) =
     Some (digit (Z.b2z (Z.testbit x (z - i))
                  + 2 * Z.b2z (Z.testbit y (z - i))))).
Proof.
  intros Hz _ _. rewrite quadKey_digits. split; [| split].
  - apply loop_digits_length.
  - intros p c. apply loop_digits_alphabet.
  - intros i Hi. rewrite loop_digits_get by lia.
    replace (Z.of_nat (Z.to_nat z - 1 - Z.to_nat (i - 1))) with (z - i)
      by lia.
    rewrite Z.mod_small by lia. reflexivity.
Qed.

Lemma quadKey_length_and_digits_witness :
  String.length (quadKey 3 5 3) = Z.to_nat 3 /\
  (forall p c, String.get p (quadKey 3 5 3) = Some c -> In c alphabet) /\
  (forall i, 1 <= i <= 3 ->
     String.get (Z.to_nat (i - 1)) (quadKey 3 5 3) =
     Some (digit (Z.b2z (Z.testbit 5 (3 - i))
                  + 2 * Z.b2z (Z.testbit 3 (3 - i))))).
Proof. apply (quadKey_length_and_digits 3 5 3); simpl; lia. Defined.

(** C1 at zoom 33: the tile (33, 2^32, 0) is valid, bit 32 of [x] is set,
    and yet the first character of the quadkey is not the digit 1. *)
Lemma quadKey_first_digit_at_zoom_33 :
  0 <= 33 /\ 0 <= 2 ^ 32 < 2 ^ 33 /\ 0 <= 0 < 2 ^ 33 /\ 1 <= 1 <= 33 /\
  String.get (Z.to_nat (1 - 1)) (quadKey 33 (2 ^ 32) 0) <>
  Some (digit (Z.b2z (Z.testbit (2 ^ 32) (33 - 1))
               + 2 * Z.b2z (Z.testbit 0 (33 - 1)))).
Proof.
  split; [lia |]. split; [simpl; lia |]. split; [simpl; lia |].
  split; [lia |]. vm_compute. discriminate.
Qed.







(** C9: for [0 <= z <= 31] and [x], [y] in 32-bit range (signed or
    unsigned), the quadkey is that of the coordinates reduced modulo
    [2^z]. *)
Theorem quadKey_masks_coordinates (z x y : Z) :
  0 <= z <= 31 ->
  - 2 ^ 31 <= x < 2 ^ 32 -> - 2 ^ 31 <= y < 2 ^ 32 ->
  quadKey z x y = quadKey z (x mod 2 ^ z) (y mod 2 ^ z).
Proof.
  intros Hz _ _. rewrite !quadKey_digits.
  apply loop_digits_ext; intros k Hk;
    rewrite Z.mod_small by lia;
    symmetry; apply Z.mod_pow2_bits_low; lia.
Qed.

Lemma quadKey_masks_coordinates_witness :
  quadKey 2 7 (-1) = quadKey 2 (7 mod 2 ^ 2) (-1 mod 2 ^ 2).
Proof. apply (quadKey_masks_coordinates 2 7 (-1)); simpl; lia. Defined.

(** C10, up to zoom 32: for [0 <= z <= 32], the decoder recovers a valid
    tile of zoom [z] from its quadkey, and two valid tiles of zoom [z] with
    the same quadkey are the same tile. *)
Theorem quadKey_injective (z x1 y1 x2 y2 : Z) :
  0 <= z <= 32 ->
  0 <= x1 < 2 ^ z -> 0 <= y1 < 2 ^ z ->
  0 <= x2 < 2 ^ z -> 0 <= y2 < 2 ^ z ->
  decode (quadKey z x1 y1) = (x1, y1) /\
  (quadKey z x1 y1 = quadKey z x2 y2 -> x1 = x2 /\ y1 = y2).
Proof.
  intros Hz Hx1 Hy1 Hx2 Hy2.
  pose proof (decode_quadKey z x1 y1 Hz Hx1 Hy1) as H1.
  pose proof (decode_quadKey z x2 y2 Hz Hx2 Hy2) as H2.
  split; [exact H1 |]. intros Heq.
  rewrite Heq, H2 in H1. injection H1 as -> ->. split; reflexivity.
Qed.

Lemma quadKey_injective_witness :
  decode (quadKey 3 5 3) = (5, 3) /\
  (quadKey 3 5 3 = quadKey 3 5 3 -> 5 = 5 /\ 3 = 3).
Proof. apply (quadKey_injective 3 5 3 5 3); simpl; lia. Defined.

(** C10 at zoom 33: two distinct valid tiles with the same quadkey. *)
Lemma quadKey_collision_at_zoom_33 :
  0 <= 33 /\ 0 <= 2 ^ 32 < 2 ^ 33 /\ 0 <= 0 < 2 ^ 33 /\
  quadKey 33 (2 ^ 32) 0 = quadKey 33 0 0 /\
  ~ (2 ^ 32 = 0 /\ 0 = 0).
Proof.
  split; [lia |]. split; [simpl; lia |]. split; [simpl; lia |].
  split; [vm_compute; reflexivity |].
  intros [H _]. discriminate H.
Qed.

End QuadKey.

(** ** The constructor and the no-op method *)

Section Construction.
Import BingMapsProvider.

(** C7: the constructor stores its two arguments; an [undefined] API key
    becomes the empty string, an [undefined] type becomes the aerial
    view-type constant, which is "a". *)
Theorem constructor_defaults :
  (forall k ty, apiKey (constructor (Some k) ty) = k) /\
  (forall ty, apiKey (constructor None ty) = "") /\
  (forall k ty, type (constructor k (Some ty)) = ty) /\
  (forall k, type (constructor k None) = AERIAL) /\
  AERIAL = "a".
Proof. repeat split. Qed.

(** C8: [loadHeightGeometry] returns no value and leaves the whole program
    state, the fields of its node included, as it was. *)
Theorem loadHeightGeometry_noop (Heap NodeRef : Type)
  (this : NodeRef) (heap : Heap) :
  MapHeightNodeShader.loadHeightGeometry Heap NodeRef this heap = (tt, heap).
Proof. reflexivity. Qed.

End Construction.

(** ** Fetching a tile *)

Section Fetch.
Import DOM Page BingMapsProvider.
Local Open Scope list_scope.

Lemma alter_snoc {A} (f : A -> A) (l : list A) (a : A) :
  alter f (List.length l) (l ++ [a]) = l ++ [f a].
Proof.
  rewrite <- (Nat.add_0_r (List.length l)), alter_app_r. reflexivity.
Qed.

Lemma lookup_snoc {A} (l : list A) (a : A) :
  (l ++ [a]) !! List.length l = Some a.
Proof. apply list_lookup_middle. reflexivity. Qed.

Lemma fetchTile_world (this : BingMapsProvider.t) (zoom x y : Z)
  (w : World) :
  fetchTile this zoom x y w =
  (List.length (handles w),
   {| images := images w ++ [requested this zoom x y
                               (List.length (handles w))
                               (List.length (images w))];
      handles := handles w ++ [CancelablePromise.fresh] |}).
Proof.
  unfold fetchTile, new_CancelablePromise, JS.bind, createElement_img,
    set_onload, set_onerror, set_crossOrigin, set_src, JS.modify,
    update_image.
  cbn [snd images handles]. rewrite !alter_snoc. reflexivity.
Qed.

(** *** What an event can do to the handles and to the images *)

Lemma handle_op_id : handle_op id.
Proof. intros p. split; [reflexivity | right; reflexivity]. Qed.

Lemma handle_op_resolve (v : ImageRef) :
  handle_op (CancelablePromise.resolve v).
Proof.
  intros p. unfold CancelablePromise.resolve.
  destruct (CancelablePromise.state p); simpl; split; auto; congruence.
Qed.

Lemma handle_op_reject (r : option string) :
  handle_op (CancelablePromise.reject r).
Proof.
  intros p. unfold CancelablePromise.reject.
  destruct (CancelablePromise.state p); simpl; split; auto; congruence.
Qed.

Lemma handle_op_cancel : handle_op CancelablePromise.cancel.
Proof.
  intros p. unfold CancelablePromise.cancel.
  destruct (CancelablePromise.state p); simpl; split; auto; congruence.
Qed.

Lemma alter_id {A} (i : nat) (l : list A) : alter id i l = l.
Proof.
  revert i. induction l as [| a l IH]; intros [| i]; simpl;
    try reflexivity.
  f_equal. apply IH.
Qed.

Lemma call_handles (l : Listener) (w : World) :
  images (call l w) = images w /\
  exists f k, handle_op f /\ handles (call l w) = alter f k (handles w).
Proof.
  destruct l as [h image | h]; simpl; (split; [reflexivity |]).
  - exists (CancelablePromise.resolve image), h.
    split; [apply handle_op_resolve | reflexivity].
  - exists (CancelablePromise.reject None), h.
    split; [apply handle_op_reject | reflexivity].
Qed.

Lemma fire_handles (handler : HTMLImageElement -> option Listener)
  (i : ImageRef) (w : World) :
  images (fire handler i w) = images w /\
  exists f k, handle_op f /\
              handles (fire handler i w) = alter f k (handles w).
Proof.
  assert (Hsame : images w = images w /\
            exists f k, handle_op f /\ handles w = alter f k (handles w)).
  { split; [reflexivity |]. exists id, 0%nat.
    split; [apply handle_op_id | symmetry; apply alter_id]. }
  unfold fire. destruct (images w !! i) as [e |]; [| exact Hsame].
  destruct (loading e); [| exact Hsame].
  destruct (handler e) as [l |]; [apply call_handles | exact Hsame].
Qed.

(** Every event alters at most one handle, by one of the handle
    operations. *)
Lemma dispatch_handles (ev : Event) (w : World) :
  exists f k, handle_op f /\
              handles (dispatch ev w) = alter f k (handles w).
Proof.
  destruct ev as [i | i why | h]; simpl.
  - apply fire_handles.
  - apply fire_handles.
  - unfold cancel. destruct (handles w !! h) as [p |].
    + exists CancelablePromise.cancel, h. split; [apply handle_op_cancel |].
      destruct (CancelablePromise.to_abort p); reflexivity.
    + exists id, 0%nat.
      split; [apply handle_op_id | symmetry; apply alter_id].
Qed.

(** An event changes the images only by aborting the transport that some
    pending handle owns. *)
Lemma dispatch_images (ev : Event) (w : World) :
  images (dispatch ev w) = images w \/
  exists k p i,
    handles w !! k = Some p /\
    CancelablePromise.transport p = Some i /\
    images (dispatch ev w) = alter aborted i (images w).
Proof.
  destruct ev as [i | i why | h]; simpl.
  - left. apply fire_handles.
  - left. apply fire_handles.
  - unfold cancel. destruct (handles w !! h) as [p |] eqn:Hp.
    + destruct (CancelablePromise.to_abort p) as [i |] eqn:Hi.
      * right. exists h, p, i. split; [exact Hp |]. split; [| reflexivity].
        unfold CancelablePromise.to_abort in Hi.
        destruct (CancelablePromise.state p); congruence.
      * left. reflexivity.
    + left. reflexivity.
Qed.

(** A handle that is no longer pending stays as it is, whatever happens
    afterwards. *)
Lemma settled_forever (evs : list Event) (w : World) (h : HandleRef)
  (p : CancelablePromise.t) :
  handles w !! h = Some p ->
  CancelablePromise.state p <> CancelablePromise.Pending ->
  handles (run evs w) !! h = Some p.
Proof.
  revert w. induction evs as [| ev evs IH]; intros w Hh Hp; [exact Hh |].
  unfold run in *. cbn [foldl]. apply IH; [| exact Hp].
  destruct (dispatch_handles ev w) as (f & k & Hf & ->).
  destruct (decide (k = h)) as [Hk | Hk].
  - subst k. rewrite list_lookup_alter_eq, Hh. simpl.
    f_equal. apply Hf. exact Hp.
  - rewrite list_lookup_alter_ne by exact Hk. exact Hh.
Qed.

(** An image that no handle owns is never touched by an event. *)
Lemma unowned_forever (evs : list Event) (w : World) (i : ImageRef)
  (e : HTMLImageElement) :
  images w !! i = Some e ->
  Forall (fun p => CancelablePromise.transport p <> Some i) (handles w) ->
  images (run evs w) !! i = Some e.
Proof.
  revert w. induction evs as [| ev evs IH]; intros w Hi Hown; [exact Hi |].
  unfold run in *. cbn [foldl]. apply IH.
  - destruct (dispatch_images ev w) as [-> | (k & p & j & Hk & Hj & ->)];
      [exact Hi |].
    rewrite list_lookup_alter_ne; [exact Hi |].
    intros ->. exact (Forall_lookup_1 _ _ _ _ Hown Hk Hj).
  - destruct (dispatch_handles ev w) as (f & k & Hf & ->).
    apply Forall_alter; [exact Hown |].
    intros p _ Hp. destruct (Hf p) as [_ [Hnone | Hsame]]; congruence.
Qed.

(** *** Events of other fetches *)

Lemma call_target (l : Listener) (w : World) :
  exists f, handle_op f /\ call l w = update_handle f (target l) w.
Proof.
  destruct l as [h image | h]; simpl.
  - exists (CancelablePromise.resolve image).
    split; [apply handle_op_resolve | reflexivity].
  - exists (CancelablePromise.reject None).
    split; [apply handle_op_reject | reflexivity].
Qed.

Lemma fire_cases (handler : HTMLImageElement -> option Listener)
  (j : ImageRef) (w : World) :
  fire handler j w = w \/
  exists e l, images w !! j = Some e /\ handler e = Some l /\
              fire handler j w = call l w.
Proof.
  unfold fire. destruct (images w !! j) as [e |]; [| left; reflexivity].
  destruct (loading e); [| left; reflexivity].
  destruct (handler e) as [l |] eqn:Hl; [| left; reflexivity].
  right. exists e, l. repeat split. exact Hl.
Qed.

Lemma on_its_own_call (h : HandleRef) (i : ImageRef)
  (p : CancelablePromise.t) (e : HTMLImageElement) (w : World)
  (l : Listener) :
  on_its_own h i p e w -> target l <> h -> on_its_own h i p e (call l w).
Proof.
  intros (Hh & Hi & Hown & Hother) Hl.
  destruct (call_target l w) as (f & Hf & ->).
  unfold update_handle. repeat split; cbn [handles images].
  - rewrite list_lookup_alter_ne by exact Hl. exact Hh.
  - exact Hi.
  - apply Forall_alter; [exact Hown |].
    intros q _ Hq. destruct (Hf q) as [_ [Hnone | Hsame]]; congruence.
  - exact Hother.
Qed.

Lemma on_its_own_fire (h : HandleRef) (i : ImageRef)
  (p : CancelablePromise.t) (e : HTMLImageElement) (w : World)
  (handler : HTMLImageElement -> option Listener) (j : ImageRef) :
  (forall e' l, handler e' = Some l ->
                onload e' = Some l \/ onerror e' = Some l) ->
  on_its_own h i p e w -> j <> i -> on_its_own h i p e (fire handler j w).
Proof.
  intros Hhandler Hinv Hj.
  destruct (fire_cases handler j w) as [-> | (e' & l & He' & Hl & ->)];
    [exact Hinv |].
  apply on_its_own_call; [exact Hinv |].
  destruct Hinv as (_ & _ & _ & Hother).
  exact (Hother j e' l Hj He' (Hhandler e' l Hl)).
Qed.

Lemma on_its_own_cancel (h : HandleRef) (i : ImageRef)
  (p : CancelablePromise.t) (e : HTMLImageElement) (w : World)
  (k : HandleRef) :
  on_its_own h i p e w -> k <> h -> on_its_own h i p e (cancel k w).
Proof.
  intros Hinv Hk. pose proof Hinv as (Hh & Hi & Hown & Hother).
  unfold cancel. destruct (handles w !! k) as [q |] eqn:Hq; [| exact Hinv].
  assert (Hinv1 : on_its_own h i p e
                    (update_handle CancelablePromise.cancel k w)).
  { unfold update_handle. repeat split; cbn [handles images].
    - rewrite list_lookup_alter_ne by exact Hk. exact Hh.
    - exact Hi.
    - apply Forall_alter; [exact Hown |].
      intros q' _ Hq'.
      destruct (handle_op_cancel q') as [_ [Hnone | Hsame]]; congruence.
    - exact Hother. }
  destruct (CancelablePromise.to_abort q) as [j |] eqn:Hj; [| exact Hinv1].
  assert (Hji : j <> i).
  { intros ->. apply (Forall_lookup_1 _ _ _ _ Hown Hq).
    unfold CancelablePromise.to_abort in Hj.
    destruct (CancelablePromise.state q); congruence. }
  destruct Hinv1 as (Hh1 & Hi1 & Hown1 & Hother1).
  unfold update_image. repeat split; cbn [handles images] in *.
  - exact Hh1.
  - rewrite list_lookup_alter_ne by exact Hji. exact Hi1.
  - exact Hown1.
  - intros j' e' l Hj'. destruct (decide (j = j')) as [<- | Hne].
    + rewrite list_lookup_alter_eq.
      intros He'. apply fmap_Some in He' as (e0 & _ & ->).
      unfold aborted. cbn [onload onerror].
      intros [Hl | Hl]; discriminate Hl.
    + rewrite list_lookup_alter_ne by exact Hne. apply Hother1. exact Hj'.
Qed.

(** Events of other fetches leave a fetch on its own as it is. *)
Lemma on_its_own_forever (h : HandleRef) (i : ImageRef)
  (p : CancelablePromise.t) (e : HTMLImageElement)
  (evs : list Event) (w : World) :
  on_its_own h i p e w -> foreign h i evs -> on_its_own h i p e (run evs w).
Proof.
  revert w. induction evs as [| ev evs IH]; intros w Hinv Hevs;
    [exact Hinv |].
  apply Forall_cons in Hevs as [Hev Hevs].
  unfold run in *. cbn [foldl]. apply IH; [| exact Hevs].
  destruct ev as [j | j why | k]; cbn [concerns dispatch] in *;
    apply Nat.eqb_neq in Hev.
  - apply on_its_own_fire; [| exact Hinv | exact Hev].
    intros e' l Hl. left. exact Hl.
  - apply on_its_own_fire; [| exact Hinv | exact Hev].
    intros e' l Hl. right. exact Hl.
  - apply on_its_own_cancel; [exact Hinv | exact Hev].
Qed.

(** In a well-formed page, the fetch that [fetchTile] starts is on its
    own: pending, with the image as requested. *)
Lemma fetchTile_on_its_own (this : BingMapsProvider.t) (zoom x y : Z)
  (w : World) :
  well_formed w ->
  on_its_own (List.length (handles w)) (List.length (images w))
    CancelablePromise.fresh
    (requested this zoom x y (List.length (handles w))
       (List.length (images w)))
    (snd (fetchTile this zoom x y w)).
Proof.
  intros [Hown Hlis]. rewrite fetchTile_world. cbn [snd].
  repeat split; cbn [handles images].
  - apply lookup_snoc.
  - apply lookup_snoc.
  - apply Forall_app. split.
    + eapply Forall_impl; [exact Hown |].
      intros q Hq Hi. specialize (Hq _ Hi). lia.
    + apply Forall_singleton. discriminate.
  - intros j e' l Hj He' Hl Htarget.
    apply lookup_snoc_Some in He' as [[Hlt He'] | [Heq _]]; [| lia].
    pose proof (Forall_lookup_1 _ _ _ _ Hlis He' l Hl) as Hbound. lia.
Qed.

(** *** Well-formed pages *)

Lemma well_formed_empty : well_formed Page.empty.
Proof. split; apply Forall_nil_2. Qed.

(** Starting a fetch keeps the page well formed. *)
Lemma well_formed_fetchTile (this : BingMapsProvider.t) (zoom x y : Z)
  (w : World) :
  well_formed w -> well_formed (snd (fetchTile this zoom x y w)).
Proof.
  intros [Hown Hlis]. rewrite fetchTile_world. cbn [snd].
  split; unfold owns_existing, listeners_existing; cbn [handles images];
    rewrite last_length; apply Forall_app; split.
  - eapply Forall_impl; [exact Hown |].
    intros q Hq i Hi. specialize (Hq _ Hi). lia.
  - apply Forall_singleton. intros i Hi. discriminate Hi.
  - eapply Forall_impl; [exact Hlis |].
    intros e He l Hl. specialize (He _ Hl). lia.
  - apply Forall_singleton. unfold requested. cbn [onload onerror].
    intros l [[= <-] | [= <-]]; cbn [target]; lia.
Qed.

(** So does every event. *)
Lemma well_formed_dispatch (ev : Event) (w : World) :
  well_formed w -> well_formed (dispatch ev w).
Proof.
  intros [Hown Hlis].
  destruct (dispatch_handles ev w) as (f & k & Hf & Hh).
  assert (Hlen : List.length (images (dispatch ev w))
                 = List.length (images w)).
  { destruct (dispatch_images ev w) as [-> | (_ & _ & j & _ & _ & ->)];
      [reflexivity | apply length_alter]. }
  split.
  - unfold owns_existing. rewrite Hh, Hlen.
    apply Forall_alter; [exact Hown |].
    intros q _ Hq i Hi.
    destruct (Hf q) as [_ [Hnone | Hsame]]; [congruence |].
    apply Hq. congruence.
  - unfold listeners_existing. rewrite Hh, length_alter.
    destruct (dispatch_images ev w) as [-> | (_ & _ & j & _ & _ & ->)];
      [exact Hlis |].
    apply Forall_alter; [exact Hlis |].
    intros e _ _ l [Hl | Hl]; discriminate Hl.
Qed.

(** *** The request *)

(** C2 at a provider whose format is "png": the address that [fetchTile]
    requests for the tile (1, 1, 0) still ends in ".jpeg". *)
Theorem fetchTile_png_requests_jpeg :
  let this := {| maxZoom := 19; apiKey := ""; type := AERIAL;
                 format := "png"; mapSize := 512; subdomain := "t1" |} in
  images (snd (fetchTile this 1 1 0 Page.empty)) !! 0%nat =
  Some {| onload := Some (ResolveWithImage 0 0);
          onerror := Some (RejectBare 0);
          crossOrigin := Some "Anonymous"%string;
          src := Some
            "http://ecn.t1.tiles.virtualearth.net/tiles/a1.jpeg?g=1173"%string
       |}.
Proof. vm_compute. reflexivity. Qed.

(** *** Cancellation *)

(** C3 as the claim has it, at the first fetch of a page: after the
    caller has canceled the handle, the image is still loading, with both
    handlers installed. *)
Lemma fetchTile_cancel_leaves_image_loading :
  let (h, w1) := fetchTile (constructor None None) 1 1 0 Page.empty in
  let w2 := dispatch (Cancel h) w1 in
  (CancelablePromise.state <$> handles w1 !! h)
    = Some CancelablePromise.Pending /\
  (loading <$> images w2 !! 0%nat) = Some true /\
  images w2 !! 0%nat <> (aborted <$> images w1 !! 0%nat).
Proof. vm_compute. split; [| split]; [reflexivity .. | discriminate]. Qed.

(** C3, the part that holds: in a well-formed page, once the caller has
    canceled the handle of a fetch that had not settled (only events of
    other fetches came before), no event that follows makes the handle
    invoke a continuation: it stays canceled with no call made. The image
    load is not aborted: the element stays as [fetchTile] left it. *)
Theorem fetchTile_cancel_silences (this : BingMapsProvider.t)
  (zoom x y : Z) (w : World) (before later : list Event) :
  well_formed w ->
  foreign (fst (fetchTile this zoom x y w)) (List.length (images w)) before ->
  let (h, w1) := fetchTile this zoom x y w in
  let w2 := run later (dispatch (Cancel h) (run before w1)) in
  handles w2 !! h =
    Some {| CancelablePromise.state := CancelablePromise.Canceled;
            CancelablePromise.calls := [];
            CancelablePromise.transport := None |} /\
  images w2 !! List.length (images w) =
    Some (requested this zoom x y h (List.length (images w))).
Proof.
  intros Hwf Hbefore.
  pose proof (fetchTile_on_its_own this zoom x y w Hwf) as Hstart.
  rewrite fetchTile_world in *. cbn [fst snd] in *.
  set (h := List.length (handles w)) in *.
  set (i := List.length (images w)) in *.
  pose proof (on_its_own_forever _ _ _ _ before _ Hstart Hbefore)
    as (Hh & Hi & Hown & _).
  set (w1 := run before _) in *.
  assert (Hcancel : dispatch (Cancel h) w1
                    = update_handle CancelablePromise.cancel h w1).
  { cbn [dispatch]. unfold cancel. rewrite Hh. reflexivity. }
  rewrite Hcancel. unfold update_handle. split.
  - apply settled_forever; cbn [handles]; [| discriminate].
    rewrite list_lookup_alter_eq, Hh. reflexivity.
  - apply unowned_forever; cbn [handles images]; [exact Hi |].
    apply Forall_alter; [exact Hown |].
    intros q _ Hq.
    destruct (handle_op_cancel q) as [_ [Hnone | Hsame]]; congruence.
Qed.

Lemma fetchTile_cancel_silences_witness :
  let (h, w1) := fetchTile (constructor None None) 3 5 3 Page.empty in
  let w2 := run [Load 0%nat; Error 0%nat TransportFailure]
                (dispatch (Cancel h) (run [Cancel 7%nat] w1)) in
  handles w2 !! h =
    Some {| CancelablePromise.state := CancelablePromise.Canceled;
            CancelablePromise.calls := [];
            CancelablePromise.transport := None |} /\
  images w2 !! List.length (images Page.empty) =
    Some (requested (constructor None None) 3 5 3 h
            (List.length (images Page.empty))).
Proof.
  apply (fetchTile_cancel_silences (constructor None None) 3 5 3 Page.empty
           [Cancel 7%nat] [Load 0%nat; Error 0%nat TransportFailure]).
  - split; apply Forall_nil_2.
  - apply Forall_cons. split; [reflexivity | apply Forall_nil_2].
Defined.

(** *** Failure *)

(** C4 as the claim has it, at a fetch that the caller cancels before its
    transport fails: the [error] event finds the handle canceled, which
    does not settle as failed and invokes no continuation. *)
Lemma fetchTile_error_after_cancel :
  let (h, w1) := fetchTile (constructor None None) 1 1 0 Page.empty in
  let w2 := dispatch (Error 0%nat TransportFailure)
                     (dispatch (Cancel h) w1) in
  (loading <$> images (dispatch (Cancel h) w1) !! 0%nat) = Some true /\
  handles w2 !! h =
    Some {| CancelablePromise.state := CancelablePromise.Canceled;
            CancelablePromise.calls := [];
            CancelablePromise.transport := None |} /\
  handles w2 !! h <>
    Some {| CancelablePromise.state := CancelablePromise.Rejected None;
            CancelablePromise.calls := [CancelablePromise.Failed None];
            CancelablePromise.transport := None |}.
Proof. vm_compute. split; [| split]; [reflexivity .. | discriminate]. Qed.

(** C4, for a fetch not canceled before: in a well-formed page, when the
    browser raises [error] on the image of a fetch that is still pending
    (only events of other fetches came before, no cancellation of this
    one), for a
    transport failure or for a payload that does not decode, the handle
    becomes rejected with no reason attached and has invoked the failure
    continuation once and the success continuation never; whatever
    happens later leaves it so. *)
Theorem fetchTile_error_rejects_once (this : BingMapsProvider.t)
  (zoom x y : Z) (w : World) (why : Failure) (before later : list Event) :
  well_formed w ->
  foreign (fst (fetchTile this zoom x y w)) (List.length (images w)) before ->
  let (h, w1) := fetchTile this zoom x y w in
  let w2 := run later (dispatch (Error (List.length (images w)) why)
                                (run before w1)) in
  handles w2 !! h =
    Some {| CancelablePromise.state := CancelablePromise.Rejected None;
            CancelablePromise.calls := [CancelablePromise.Failed None];
            CancelablePromise.transport := None |}.
Proof.
  intros Hwf Hbefore.
  pose proof (fetchTile_on_its_own this zoom x y w Hwf) as Hstart.
  rewrite fetchTile_world in *. cbn [fst snd] in *.
  set (h := List.length (handles w)) in *.
  set (i := List.length (images w)) in *.
  pose proof (on_its_own_forever _ _ _ _ before _ Hstart Hbefore)
    as (Hh & Hi & _ & _).
  set (w1 := run before _) in *.
  apply settled_forever; [| discriminate].
  cbn [dispatch]. unfold fire. rewrite Hi.
  cbn [loading requested src onerror call]. unfold update_handle.
  cbn [handles]. rewrite list_lookup_alter_eq, Hh. reflexivity.
Qed.

Lemma fetchTile_error_rejects_once_witness :
  let (h, w1) := fetchTile (constructor None None) 3 5 3 Page.empty in
  let w2 := run [Load 0%nat; Cancel h]
                (dispatch (Error (List.length (images Page.empty))
                                 DecodeFailure)
                          (run [Load 4%nat] w1)) in
  handles w2 !! h =
    Some {| CancelablePromise.state := CancelablePromise.Rejected None;
            CancelablePromise.calls := [CancelablePromise.Failed None];
            CancelablePromise.transport := None |}.
Proof.
  apply (fetchTile_error_rejects_once (constructor None None) 3 5 3
           Page.empty DecodeFailure [Load 4%nat] [Load 0%nat; Cancel 0%nat]).
  - split; apply Forall_nil_2.
  - apply Forall_cons. split; [reflexivity | apply Forall_nil_2].
Defined.

End Fetch.

(** ** More on strings *)

Section MoreStrings.

Lemma length_append (s1 s2 : string) :
  String.length (s1 ++ s2)%string
  = (String.length s1 + String.length s2)%nat.
Proof. induction s1 as [| c s1 IH]; simpl; [| rewrite IH]; reflexivity. Qed.

Lemma append_cancel_l (s a b : string) :
  (s ++ a)%string = (s ++ b)%string -> a = b.
Proof.
  induction s as [| c s IH]; simpl; intros H; [exact H |].
  injection H as H. apply IH. exact H.
Qed.

Lemma append_cancel_r (t a b : string) :
  (a ++ t)%string = (b ++ t)%string -> a = b.
Proof.
  revert b. induction a as [| c a IH]; intros [| d b] H; simpl in H.
  - reflexivity.
  - apply (f_equal String.length) in H. simpl in H.
    rewrite length_append in H. lia.
  - apply (f_equal String.length) in H. simpl in H.
    rewrite length_append in H. lia.
  - injection H as -> H. f_equal. apply IH. exact H.
Qed.

End MoreStrings.

(** ** The quadkey for every zoom and every pair of coordinates *)

Section QuadKeyEverywhere.
Import BingMapsProvider QuadKeyDigits.



(** X2: a zoom that is zero or negative is not rejected: the loop runs no
    iteration and the quadkey is the empty string. *)
Theorem quadKey_nonpositive_zoom (zoom x y : Z) :
  zoom <= 0 -> quadKey zoom x y = "".
Proof. intros Hz. unfold quadKey. apply quadKey_loop_done. exact Hz. Qed.

Lemma quadKey_nonpositive_zoom_witness : quadKey (-3) 5 7 = "".
Proof. apply (quadKey_nonpositive_zoom (-3) 5 7). lia. Defined.



(** X4: at every zoom the coordinates count modulo 2^32 only: the quadkey
    is that of the coordinates reduced to 32 bits, unsigned or signed. *)
Theorem quadKey_low_32_bits (zoom x y : Z) :
  quadKey zoom x y = quadKey zoom (x mod 2 ^ 32) (y mod 2 ^ 32) /\
  quadKey zoom x y = quadKey zoom (JS.ToInt32 x) (JS.ToInt32 y).
Proof.
  rewrite !quadKey_digits. split; apply loop_digits_ext; intros k _.
  - symmetry. apply Z.mod_pow2_bits_low.
    pose proof (Z.mod_pos_bound (Z.of_nat k) 32). lia.
  - symmetry. apply Z.mod_pow2_bits_low.
    pose proof (Z.mod_pos_bound (Z.of_nat k) 32). lia.
  - symmetry. apply ToInt32_testbit.
    pose proof (Z.mod_pos_bound (Z.of_nat k) 32). lia.
  - symmetry. apply ToInt32_testbit.
    pose proof (Z.mod_pos_bound (Z.of_nat k) 32). lia.
Qed.

Lemma loop_digits_child (x y : Z) (a b : bool) (n : nat) :
  (n <= 31)%nat ->
  loop_digits (2 * x + Z.b2z a) (2 * y + Z.b2z b) (S n) =
  (loop_digits x y n ++ String (level_digit a b) "")%string.
Proof.
  induction n as [| m IH]; intros Hn.
  - cbn [loop_digits append]. change (Z.of_nat 0 mod 32) with 0.
    rewrite !Z.testbit_0_r. reflexivity.
  - cbn [loop_digits] in *. rewrite IH by lia. cbn [append].
    rewrite !(Z.mod_small (Z.of_nat (S m)) 32) by lia.
    rewrite !(Z.mod_small (Z.of_nat m) 32) by lia.
    rewrite Nat2Z.inj_succ. rewrite !Z.testbit_succ_r by lia. reflexivity.
Qed.

(** X5: up to zoom 31, the quadkey of a child tile is the quadkey of its
    parent followed by one digit, the one of the child's position in the
    parent: tile [(z + 1, 2x + a, 2y + b)] has the quadkey of [(z, x, y)]
    followed by the digit [a + 2b]. *)
Theorem quadKey_child (z x y : Z) (a b : bool) :
  0 <= z <= 31 ->
  quadKey (z + 1) (2 * x + Z.b2z a) (2 * y + Z.b2z b) =
  (quadKey z x y ++ String (level_digit a b) "")%string.
Proof.
  intros Hz. rewrite !quadKey_digits.
  replace (Z.to_nat (z + 1)) with (S (Z.to_nat z)) by lia.
  apply loop_digits_child. lia.
Qed.

Lemma quadKey_child_witness :
  quadKey (2 + 1) (2 * 2 + Z.b2z true) (2 * 1 + Z.b2z true) =
  (quadKey 2 2 1 ++ String (level_digit true true) "")%string.
Proof. apply (quadKey_child 2 2 1 true true). lia. Defined.




End QuadKeyEverywhere.

(** ** Decoding and the tile address *)

Section QuadKeyRoundTrip.
Import BingMapsProvider QuadKeyDigits.

Lemma decode_from_shift (s : string) (ax ay : Z) :
  decode_from s (ax, ay) =
  (ax * 2 ^ Z.of_nat (String.length s) + fst (decode s),
   ay * 2 ^ Z.of_nat (String.length s) + snd (decode s)).
Proof.
  unfold decode. revert ax ay. induction s as [| c r IH]; intros ax ay.
  - simpl. f_equal; lia.
  - cbn [decode_from String.length fst snd].
    rewrite IH. rewrite (IH (2 * 0 + _) (2 * 0 + _)).
    rewrite Nat2Z.inj_succ, Z.pow_succ_r by lia.
    cbn [fst snd]. f_equal; ring.
Qed.

(** A quadkey digit is the digit of two bits, which the decoder reads
    back. *)
Lemma alphabet_bits (c : ascii) :
  In c alphabet ->
  exists bx by',
    c = level_digit bx by' /\
    (Z.of_nat (nat_of_ascii c) - 48) mod 2 = Z.b2z bx /\
    (Z.of_nat (nat_of_ascii c) - 48) / 2 = Z.b2z by'.
Proof.
  intros [<- | [<- | [<- | [<- | []]]]].
  - exists false, false. repeat split.
  - exists true, false. repeat split.
  - exists false, true. repeat split.
  - exists true, true. repeat split.
Qed.

Lemma decode_cons (c : ascii) (r : string) (bx by' : bool) :
  (Z.of_nat (nat_of_ascii c) - 48) mod 2 = Z.b2z bx ->
  (Z.of_nat (nat_of_ascii c) - 48) / 2 = Z.b2z by' ->
  decode (String c r) =
  (Z.b2z bx * 2 ^ Z.of_nat (String.length r) + fst (decode r),
   Z.b2z by' * 2 ^ Z.of_nat (String.length r) + snd (decode r)).
Proof.
  intros Hx Hy. unfold decode at 1. cbn [decode_from fst snd].
  rewrite Hx, Hy, decode_from_shift. f_equal; f_equal; lia.
Qed.

Lemma decode_range (s : string) :
  over_alphabet s ->
  0 <= fst (decode s) < 2 ^ Z.of_nat (String.length s) /\
  0 <= snd (decode s) < 2 ^ Z.of_nat (String.length s).
Proof.
  induction s as [| c r IH]; intros Hs.
  - cbn. lia.
  - destruct Hs as [Hc Hr]. specialize (IH Hr).
    destruct (alphabet_bits c Hc) as (bx & by' & _ & Hx & Hy).
    rewrite (decode_cons c r bx by' Hx Hy). cbn [fst snd String.length].
    rewrite Nat2Z.inj_succ, Z.pow_succ_r by lia.
    destruct bx, by'; cbn [Z.b2z]; lia.
Qed.

Lemma testbit_top (b : bool) (r : Z) (n : Z) :
  0 <= n -> 0 <= r < 2 ^ n -> Z.testbit (Z.b2z b * 2 ^ n + r) n = b.
Proof.
  intros Hn Hr. apply (Z.testbit_unique _ n b r 0); [exact Hr | ring].
Qed.

Lemma testbit_below (b : bool) (r : Z) (n k : Z) :
  0 <= k < n -> 0 <= r < 2 ^ n ->
  Z.testbit (Z.b2z b * 2 ^ n + r) k = Z.testbit r k.
Proof.
  intros Hk Hr.
  rewrite <- (Z.mod_pow2_bits_low (Z.b2z b * 2 ^ n + r) n k) by lia.
  rewrite Z.add_comm, Z.mod_add by lia.
  rewrite Z.mod_small by exact Hr. reflexivity.
Qed.

Lemma loop_digits_decode (s : string) :
  over_alphabet s -> (String.length s <= 32)%nat ->
  loop_digits (fst (decode s)) (snd (decode s)) (String.length s) = s.
Proof.
  induction s as [| c r IH]; intros Hs Hlen; [reflexivity |].
  destruct Hs as [Hc Hr]. cbn [String.length] in Hlen.
  destruct (decode_range r Hr) as [Hxr Hyr].
  destruct (alphabet_bits c Hc) as (bx & by' & -> & Hx & Hy).
  rewrite (decode_cons _ r bx by' Hx Hy).
  cbn [fst snd String.length loop_digits].
  rewrite (Z.mod_small (Z.of_nat (String.length r)) 32) by lia.
  rewrite !testbit_top by lia. f_equal.
  transitivity (loop_digits (fst (decode r)) (snd (decode r))
                  (String.length r)); [| apply IH; [exact Hr | lia]].
  apply loop_digits_ext; intros k Hk;
    rewrite Z.mod_small by lia; apply testbit_below; lia.
Qed.

(** X7: every string of at most 32 quadkey digits is a quadkey: the
    decoder sends it to a valid tile of the zoom that is its length, and
    [quadKey] sends that tile back to the string. *)
Theorem quadKey_decode (s : string) :
  over_alphabet s -> (String.length s <= 32)%nat ->
  0 <= fst (decode s) < 2 ^ Z.of_nat (String.length s) /\
  0 <= snd (decode s) < 2 ^ Z.of_nat (String.length s) /\
  quadKey (Z.of_nat (String.length s)) (fst (decode s)) (snd (decode s)) = s.
Proof.
  intros Hs Hlen. destruct (decode_range s Hs) as [Hx Hy].
  split; [exact Hx |]. split; [exact Hy |].
  rewrite quadKey_digits, Nat2Z.id. apply loop_digits_decode; assumption.
Qed.

Lemma quadKey_decode_witness :
  0 <= fst (decode "3021") < 2 ^ Z.of_nat (String.length "3021") /\
  0 <= snd (decode "3021") < 2 ^ Z.of_nat (String.length "3021") /\
  quadKey (Z.of_nat (String.length "3021"))
          (fst (decode "3021")) (snd (decode "3021")) = "3021".
Proof.
  apply (quadKey_decode "3021").
  - simpl. tauto.
  - simpl. lia.
Defined.

Lemma quadKey_same_tile (z1 x1 y1 z2 x2 y2 : Z) :
  0 <= z1 <= 32 -> 0 <= x1 < 2 ^ z1 -> 0 <= y1 < 2 ^ z1 ->
  0 <= z2 <= 32 -> 0 <= x2 < 2 ^ z2 -> 0 <= y2 < 2 ^ z2 ->
  quadKey z1 x1 y1 = quadKey z2 x2 y2 ->
  z1 = z2 /\ x1 = x2 /\ y1 = y2.
Proof.
  intros Hz1 Hx1 Hy1 Hz2 Hx2 Hy2 Heq.
  assert (Hz : z1 = z2).
  { apply (f_equal String.length) in Heq.
    rewrite !quadKey_digits, !loop_digits_length in Heq. lia. }
  subst z2. split; [reflexivity |].
  pose proof (decode_quadKey z1 x1 y1 Hz1 Hx1 Hy1) as H1.
  pose proof (decode_quadKey z1 x2 y2 Hz1 Hx2 Hy2) as H2.
  rewrite Heq, H2 in H1. injection H1 as -> ->. split; reflexivity.
Qed.

(** X8: up to zoom 32 the quadkey alone names the tile, zoom included: two
    valid tiles with the same quadkey have the same zoom, [x] and [y]. *)
Theorem quadKey_names_tile (z1 x1 y1 z2 x2 y2 : Z) :
  0 <= z1 <= 32 -> 0 <= x1 < 2 ^ z1 -> 0 <= y1 < 2 ^ z1 ->
  0 <= z2 <= 32 -> 0 <= x2 < 2 ^ z2 -> 0 <= y2 < 2 ^ z2 ->
  quadKey z1 x1 y1 = quadKey z2 x2 y2 ->
  z1 = z2 /\ x1 = x2 /\ y1 = y2.
Proof. apply quadKey_same_tile. Qed.

Lemma quadKey_names_tile_witness :
  quadKey 3 5 3 = quadKey 3 5 3 /\ (3 = 3 /\ 5 = 5 /\ 3 = 3).
Proof.
  split; [reflexivity |].
  apply (quadKey_names_tile 3 5 3 3 5 3); try (simpl; lia). reflexivity.
Defined.

(** X9: a provider never requests the same address for two different
    valid tiles of zoom at most 32. *)
Theorem tile_url_names_tile (this : BingMapsProvider.t)
  (z1 x1 y1 z2 x2 y2 : Z) :
  0 <= z1 <= 32 -> 0 <= x1 < 2 ^ z1 -> 0 <= y1 < 2 ^ z1 ->
  0 <= z2 <= 32 -> 0 <= x2 < 2 ^ z2 -> 0 <= y2 < 2 ^ z2 ->
  tile_url this z1 x1 y1 = tile_url this z2 x2 y2 ->
  z1 = z2 /\ x1 = x2 /\ y1 = y2.
Proof.
  intros Hz1 Hx1 Hy1 Hz2 Hx2 Hy2 Hurl. unfold tile_url in Hurl.
  do 4 apply append_cancel_l in Hurl. apply append_cancel_r in Hurl.
  apply quadKey_same_tile; assumption.
Qed.

Lemma tile_url_names_tile_witness :
  tile_url (constructor None None) 3 5 3
  = tile_url (constructor None None) 3 5 3 /\
  (3 = 3 /\ 5 = 5 /\ 3 = 3).
Proof.
  split; [reflexivity |].
  apply (tile_url_names_tile (constructor None None) 3 5 3 3 5 3);
    try (simpl; lia). reflexivity.
Defined.

Lemma view_type_one_char (ty : string) :
  In ty view_types -> exists c, ty = String c "".
Proof.
  intros [<- | [<- | [<- | [<- | [<- | []]]]]]; eexists; reflexivity.
Qed.

(** X10: two providers on the same subdomain whose types are among the
    five view-type constants request the same address only for the same
    view type and the same valid tile (zoom at most 32). *)
Theorem tile_url_names_view_and_tile (p1 p2 : BingMapsProvider.t)
  (z1 x1 y1 z2 x2 y2 : Z) :
  subdomain p1 = subdomain p2 ->
  In (type p1) view_types -> In (type p2) view_types ->
  0 <= z1 <= 32 -> 0 <= x1 < 2 ^ z1 -> 0 <= y1 < 2 ^ z1 ->
  0 <= z2 <= 32 -> 0 <= x2 < 2 ^ z2 -> 0 <= y2 < 2 ^ z2 ->
  tile_url p1 z1 x1 y1 = tile_url p2 z2 x2 y2 ->
  type p1 = type p2 /\ z1 = z2 /\ x1 = x2 /\ y1 = y2.
Proof.
  intros Hsub Ht1 Ht2 Hz1 Hx1 Hy1 Hz2 Hx2 Hy2 Hurl.
  unfold tile_url in Hurl. rewrite Hsub in Hurl.
  do 3 apply append_cancel_l in Hurl.
  destruct (view_type_one_char _ Ht1) as [c1 E1].
  destruct (view_type_one_char _ Ht2) as [c2 E2].
  rewrite E1, E2 in *. cbn [append] in Hurl.
  injection Hurl as -> Hurl. split; [reflexivity |].
  apply append_cancel_r in Hurl.
  apply quadKey_same_tile; assumption.
Qed.

Lemma tile_url_names_view_and_tile_witness :
  tile_url (constructor None (Some ROAD)) 3 5 3
  = tile_url (constructor (Some "key") (Some ROAD)) 3 5 3 /\
  (ROAD = ROAD /\ 3 = 3 /\ 5 = 5 /\ 3 = 3).
Proof.
  split; [reflexivity |].
  apply (tile_url_names_view_and_tile (constructor None (Some ROAD))
           (constructor (Some "key"%string) (Some ROAD)) 3 5 3 3 5 3);
    try (simpl; lia); try reflexivity.
  - simpl. tauto.
  - simpl. tauto.
Defined.

End QuadKeyRoundTrip.

(** ** More on fetching a tile *)

Section MoreFetch.
Import DOM Page BingMapsProvider.
Local Open Scope list_scope.

(** X11: [fetchTile] reads the subdomain and the type of its provider and
    nothing else: the API key, the format, the map size and the maximal
    zoom have no part in the request. *)
Theorem fetchTile_reads_subdomain_and_type (p1 p2 : BingMapsProvider.t)
  (zoom x y : Z) (w : World) :
  subdomain p1 = subdomain p2 -> type p1 = type p2 ->
  fetchTile p1 zoom x y w = fetchTile p2 zoom x y w.
Proof.
  intros Hsub Hty. rewrite !fetchTile_world.
  unfold requested, tile_url. rewrite Hsub, Hty. reflexivity.
Qed.

Lemma fetchTile_reads_subdomain_and_type_witness :
  fetchTile (constructor None None) 3 5 3 Page.empty =
  fetchTile {| maxZoom := 7; apiKey := "key"; type := AERIAL;
               format := "png"; mapSize := 256; subdomain := "t1" |}
            3 5 3 Page.empty.
Proof.
  apply (fetchTile_reads_subdomain_and_type (constructor None None)
           {| maxZoom := 7; apiKey := "key"; type := AERIAL;
              format := "png"; mapSize := 256; subdomain := "t1" |}
           3 5 3 Page.empty); reflexivity.
Defined.


Lemma dispatch_load_requested (this : BingMapsProvider.t) (zoom x y : Z)
  (h : HandleRef) (i : ImageRef) (w : World) :
  images w !! i = Some (requested this zoom x y h i) ->
  dispatch (Load i) w = update_handle (CancelablePromise.resolve i) h w.
Proof.
  intros Hi. cbn [dispatch]. unfold fire. rewrite Hi. reflexivity.
Qed.

Lemma dispatch_error_requested (this : BingMapsProvider.t) (zoom x y : Z)
  (h : HandleRef) (i : ImageRef) (why : Failure) (w : World) :
  images w !! i = Some (requested this zoom x y h i) ->
  dispatch (Error i why) w
  = update_handle (CancelablePromise.reject None) h w.
Proof.
  intros Hi. cbn [dispatch]. unfold fire. rewrite Hi. reflexivity.
Qed.

(** X13: in a well-formed page, when the browser raises [load] on the
    image of a fetch that has not settled (only events of other fetches
    came before), the handle becomes resolved with the very element that
    [fetchTile] created for this tile, the success continuation has been
    invoked once with it and the failure continuation never; whatever
    happens later leaves it so. *)
Theorem fetchTile_load_resolves_once (this : BingMapsProvider.t)
  (zoom x y : Z) (w : World) (before later : list Event) :
  well_formed w ->
  foreign (fst (fetchTile this zoom x y w)) (List.length (images w)) before ->
  let (h, w1) := fetchTile this zoom x y w in
  let i := List.length (images w) in
  let w2 := run later (dispatch (Load i) (run before w1)) in
  images (run before w1) !! i = Some (requested this zoom x y h i) /\
  handles w2 !! h =
    Some {| CancelablePromise.state := CancelablePromise.Resolved i;
            CancelablePromise.calls := [CancelablePromise.Success i];
            CancelablePromise.transport := None |}.
Proof.
  intros Hwf Hbefore.
  pose proof (fetchTile_on_its_own this zoom x y w Hwf) as Hstart.
  rewrite fetchTile_world in *. cbn [fst snd] in *. cbn zeta.
  set (h := List.length (handles w)) in *.
  set (i := List.length (images w)) in *.
  pose proof (on_its_own_forever _ _ _ _ before _ Hstart Hbefore)
    as (Hh & Hi & _ & _).
  set (w1 := run before _) in *.
  split; [exact Hi |].
  apply settled_forever; [| discriminate].
  rewrite (dispatch_load_requested _ _ _ _ _ _ _ Hi).
  unfold update_handle. cbn [handles].
  rewrite list_lookup_alter_eq, Hh. reflexivity.
Qed.

Lemma fetchTile_load_resolves_once_witness :
  let (h, w1) := fetchTile (constructor None None) 3 5 3 Page.empty in
  let i := List.length (images Page.empty) in
  let w2 := run [Error 0%nat DecodeFailure; Cancel h]
                (dispatch (Load i) (run [Cancel 9%nat] w1)) in
  images (run [Cancel 9%nat] w1) !! i
    = Some (requested (constructor None None) 3 5 3 h i) /\
  handles w2 !! h =
    Some {| CancelablePromise.state := CancelablePromise.Resolved i;
            CancelablePromise.calls := [CancelablePromise.Success i];
            CancelablePromise.transport := None |}.
Proof.
  apply (fetchTile_load_resolves_once (constructor None None) 3 5 3
           Page.empty [Cancel 9%nat]
           [Error 0%nat DecodeFailure; Cancel 0%nat]).
  - split; apply Forall_nil_2.
  - apply Forall_cons. split; [reflexivity | apply Forall_nil_2].
Defined.

(** A fetch that is on its own stays so when another fetch starts. *)
Lemma on_its_own_fetchTile (h : HandleRef) (i : ImageRef)
  (p : CancelablePromise.t) (e : HTMLImageElement)
  (this : BingMapsProvider.t) (zoom x y : Z) (w : World) :
  on_its_own h i p e w ->
  on_its_own h i p e (snd (fetchTile this zoom x y w)).
Proof.
  intros (Hh & Hi & Hown & Hother). rewrite fetchTile_world. cbn [snd].
  repeat split; cbn [handles images].
  - apply lookup_app_l_Some. exact Hh.
  - apply lookup_app_l_Some. exact Hi.
  - apply Forall_app. split; [exact Hown |].
    apply Forall_singleton. discriminate.
  - intros j e' l Hj He' Hl.
    apply lookup_snoc_Some in He' as [[_ He'] | [_ <-]].
    + exact (Hother j e' l Hj He' Hl).
    + apply lookup_lt_Some in Hh.
      unfold requested in Hl. cbn [onload onerror] in Hl.
      destruct Hl as [[= <-] | [= <-]]; cbn [target]; lia.
Qed.

(** X14: two fetches in flight do not mix. When a second fetch is started
    after a first one in a well-formed page, they have different handles
    and different image elements, each element carrying the address of its
    own tile; if then the second fails and the first loads, the first
    handle is resolved with the first element and the second handle is
    rejected, whatever happens later. *)
Theorem fetches_do_not_mix (pA pB : BingMapsProvider.t)
  (zA xA yA zB xB yB : Z) (w : World) (why : Failure)
  (later : list Event) :
  well_formed w ->
  let (hA, wA) := fetchTile pA zA xA yA w in
  let (hB, wB) := fetchTile pB zB xB yB wA in
  let iA := List.length (images w) in
  let iB := List.length (images wA) in
  let w' := run later (dispatch (Load iA) (dispatch (Error iB why) wB)) in
  hA <> hB /\ iA <> iB /\
  images wB !! iA = Some (requested pA zA xA yA hA iA) /\
  images wB !! iB = Some (requested pB zB xB yB hB iB) /\
  handles w' !! hA =
    Some {| CancelablePromise.state := CancelablePromise.Resolved iA;
            CancelablePromise.calls := [CancelablePromise.Success iA];
            CancelablePromise.transport := None |} /\
  handles w' !! hB =
    Some {| CancelablePromise.state := CancelablePromise.Rejected None;
            CancelablePromise.calls := [CancelablePromise.Failed None];
            CancelablePromise.transport := None |}.
Proof.
  intros Hwf.
  pose proof (well_formed_fetchTile pA zA xA yA w Hwf) as HwfA.
  pose proof (fetchTile_on_its_own pA zA xA yA w Hwf) as HA0.
  destruct (fetchTile pA zA xA yA w) as [hA wA] eqn:EA.
  rewrite fetchTile_world in EA. injection EA as EhA EwA.
  cbn [snd] in HwfA, HA0. rewrite EhA in HA0.
  assert (ElenH : List.length (handles wA) = S hA).
  { rewrite <- EwA, <- EhA. cbn [handles]. apply last_length. }
  assert (ElenI : List.length (images wA) = S (List.length (images w))).
  { rewrite <- EwA. cbn [images]. apply last_length. }
  pose proof (fetchTile_on_its_own pB zB xB yB wA HwfA) as HB.
  pose proof (on_its_own_fetchTile _ _ _ _ pB zB xB yB wA HA0) as HA.
  destruct (fetchTile pB zB xB yB wA) as [hB wB] eqn:EB.
  rewrite fetchTile_world in EB. injection EB as EhB EwB.
  cbn [snd] in HB, HA. rewrite EhB in HB. cbn zeta.
  set (iA := List.length (images w)) in *.
  set (iB := List.length (images wA)) in *.
  assert (HhAB : hA <> hB) by lia.
  assert (HiAB : iA <> iB) by lia.
  pose proof HA as (_ & HiA & _ & _). pose proof HB as (HhB & HiB & _ & _).
  split; [exact HhAB |]. split; [exact HiAB |].
  split; [exact HiA |]. split; [exact HiB |].
  assert (HA1 : on_its_own hA iA CancelablePromise.fresh
                  (requested pA zA xA yA hA iA)
                  (dispatch (Error iB why) wB)).
  { apply (on_its_own_forever _ _ _ _ [Error iB why] wB HA).
    apply Forall_cons. split; [| apply Forall_nil_2].
    cbn [concerns]. apply Nat.eqb_neq. lia. }
  destruct HA1 as (HhA1 & HiA1 & _ & _).
  assert (HhB1 : handles (dispatch (Error iB why) wB) !! hB =
    Some {| CancelablePromise.state := CancelablePromise.Rejected None;
            CancelablePromise.calls := [CancelablePromise.Failed None];
            CancelablePromise.transport := None |}).
  { rewrite (dispatch_error_requested _ _ _ _ _ _ _ _ HiB).
    unfold update_handle. cbn [handles].
    rewrite list_lookup_alter_eq, HhB. reflexivity. }
  set (w1 := dispatch (Error iB why) wB) in *.
  rewrite (dispatch_load_requested _ _ _ _ _ _ _ HiA1).
  unfold update_handle. split.
  - apply settled_forever; cbn [handles]; [| discriminate].
    rewrite list_lookup_alter_eq, HhA1. reflexivity.
  - apply settled_forever; cbn [handles]; [| discriminate].
    rewrite list_lookup_alter_ne by exact HhAB. exact HhB1.
Qed.

Lemma fetches_do_not_mix_witness :
  let (hA, wA) := fetchTile (constructor None None) 3 5 3 Page.empty in
  let (hB, wB) := fetchTile (constructor None (Some ROAD)) 2 1 0 wA in
  let iA := List.length (images Page.empty) in
  let iB := List.length (images wA) in
  let w' := run [Cancel hA; Load iB]
              (dispatch (Load iA)
                        (dispatch (Error iB TransportFailure) wB)) in
  hA <> hB /\ iA <> iB /\
  images wB !! iA = Some (requested (constructor None None) 3 5 3 hA iA) /\
  images wB !! iB
    = Some (requested (constructor None (Some ROAD)) 2 1 0 hB iB) /\
  handles w' !! hA =
    Some {| CancelablePromise.state := CancelablePromise.Resolved iA;
            CancelablePromise.calls := [CancelablePromise.Success iA];
            CancelablePromise.transport := None |} /\
  handles w' !! hB =
    Some {| CancelablePromise.state := CancelablePromise.Rejected None;
            CancelablePromise.calls := [CancelablePromise.Failed None];
            CancelablePromise.transport := None |}.
Proof.
  apply (fetches_do_not_mix (constructor None None)
           (constructor None (Some ROAD)) 3 5 3 2 1 0 Page.empty
           TransportFailure [Cancel 0%nat; Load 1%nat]).
  split; apply Forall_nil_2.
Defined.

End MoreFetch.
